(** * ftldat2: the FTL data file codec

    A shallow embedding of [ftldat2/__init__.py]: the [FileEntry] and
    [FTLPack] classes with [load], [save] and [construct], together with
    the pieces of the Python runtime they call ([struct.pack] and
    [struct.unpack] with the formats ['<L'] and ['<LL'], [str.encode],
    [bytes.decode], binary file objects).

    Python values are modelled as follows.
    - [int] is [Z]; [len] returns a [Z].
    - [bytes] is [list byte].
    - [str] is the list of its code points, each an [N].  A Python string
      may hold any code point up to U+10FFFF, lone surrogates included.
    - an exception is a constructor of [exn]; a call that may raise
      returns a [result]. *)

From Stdlib Require Import ZArith NArith List Lia Bool.
From Stdlib Require Import Strings.Byte.
Import ListNotations.
Open Scope Z_scope.

(** ** Python values *)

Definition bytes := list byte.
Definition str := list N.

Definition len {A : Type} (l : list A) : Z := Z.of_nat (length l).

(** The exceptions the three methods can raise.  [FTLPackError a0 a1] is
    the error whose message is
    ['Index ({}) too small for {} entries.'.format(a0, a1)]. *)
Inductive exn : Type :=
| FTLPackError (a0 a1 : Z)
| struct_error
| UnicodeEncodeError
| UnicodeDecodeError
| OSError.

Inductive result (A : Type) : Type :=
| Ok (a : A)
| Raise (e : exn).
Arguments Ok {A} a.
Arguments Raise {A} e.

(** The byte whose value is [n mod 256]. *)
Definition byte_of_N (n : N) : byte :=
  match Byte.of_N (n mod 256)%N with
  | Some b => b
  | None => x00
  end.

(** [b * n] on a bytes object: [n] copies of [b], none when [n <= 0]. *)
Definition bytes_mul (b : bytes) (n : Z) : bytes :=
  concat (repeat b (Z.to_nat n)).

(** Slices of a sequence, with positions in [Z] so that a position far
    past the end costs nothing to evaluate: [dropZ k l] is [l[k:]] and
    [takeZ n l] is [l[:n]] for [k, n >= 0]. *)
Fixpoint dropZ {A : Type} (k : Z) (l : list A) : list A :=
  match l with
  | [] => []
  | x :: t => if k <=? 0 then l else dropZ (k - 1) t
  end.

Fixpoint takeZ {A : Type} (n : Z) (l : list A) : list A :=
  match l with
  | [] => []
  | x :: t => if n <=? 0 then [] else x :: takeZ (n - 1) t
  end.

(** ** struct.pack and struct.unpack, little-endian unsigned 32-bit *)

Definition le32 (n : Z) : bytes :=
  let m := Z.to_N n in
  [ byte_of_N m;
    byte_of_N (N.shiftr m 8);
    byte_of_N (N.shiftr m 16);
    byte_of_N (N.shiftr m 24) ].

(** [struct.pack('<L', n)]: raises [struct.error] unless
    [0 <= n <= 0xFFFFFFFF]. *)
Definition pack_L (n : Z) : result bytes :=
  if (0 <=? n) && (n <? 2 ^ 32) then Ok (le32 n) else Raise struct_error.

(** [struct.pack('<LL', a, b)]. *)
Definition pack_LL (a b : Z) : result bytes :=
  match pack_L a, pack_L b with
  | Ok x, Ok y => Ok (x ++ y)
  | _, _ => Raise struct_error
  end.

Definition le32_value (b0 b1 b2 b3 : byte) : Z :=
  Z.of_N (Byte.to_N b0 + 256 * Byte.to_N b1
          + 65536 * Byte.to_N b2 + 16777216 * Byte.to_N b3)%N.

(** [struct.unpack('<L', bs)[0]]: raises [struct.error] unless [bs] has
    exactly 4 bytes. *)
Definition unpack_L (bs : bytes) : result Z :=
  match bs with
  | [b0; b1; b2; b3] => Ok (le32_value b0 b1 b2 b3)
  | _ => Raise struct_error
  end.

(** [struct.unpack('<LL', bs)]: exactly 8 bytes. *)
Definition unpack_LL (bs : bytes) : result (Z * Z) :=
  match bs with
  | [b0; b1; b2; b3; c0; c1; c2; c3] =>
      Ok (le32_value b0 b1 b2 b3, le32_value c0 c1 c2 c3)
  | _ => Raise struct_error
  end.

(** ** UTF-8: [str.encode()] and [bytes.decode()], both strict *)

Definition is_surrogate (c : N) : bool :=
  ((0xD800 <=? c) && (c <=? 0xDFFF))%N.

(** The UTF-8 bytes of one code point; [None] for a surrogate, which the
    strict codec refuses to encode. *)
Definition encode_char (c : N) : option bytes :=
  if (c <? 0x80)%N then Some [byte_of_N c]
  else if (c <? 0x800)%N then
    Some [ byte_of_N (N.lor 0xC0 (N.shiftr c 6));
           byte_of_N (N.lor 0x80 (N.land c 0x3F)) ]
  else if (c <? 0x10000)%N then
    if is_surrogate c then None
    else
      Some [ byte_of_N (N.lor 0xE0 (N.shiftr c 12));
             byte_of_N (N.lor 0x80 (N.land (N.shiftr c 6) 0x3F));
             byte_of_N (N.lor 0x80 (N.land c 0x3F)) ]
  else if (c <? 0x110000)%N then
    Some [ byte_of_N (N.lor 0xF0 (N.shiftr c 18));
           byte_of_N (N.lor 0x80 (N.land (N.shiftr c 12) 0x3F));
           byte_of_N (N.lor 0x80 (N.land (N.shiftr c 6) 0x3F));
           byte_of_N (N.lor 0x80 (N.land c 0x3F)) ]
  else None.

(** [s.encode()]. *)
Fixpoint encode (s : str) : result bytes :=
  match s with
  | [] => Ok []
  | c :: t =>
      match encode_char c with
      | None => Raise UnicodeEncodeError
      | Some bs =>
          match encode t with
          | Ok r => Ok (bs ++ r)
          | Raise e => Raise e
          end
      end
  end.

(** A continuation byte [10xxxxxx] gives its six payload bits. *)
Definition continuation (b : byte) : option N :=
  let x := Byte.to_N b in
  if ((0x80 <=? x) && (x <=? 0xBF))%N then Some (N.land x 0x3F) else None.

(** [bs.decode()]: well-formed UTF-8 only; overlong forms, surrogates,
    values past U+10FFFF, stray continuation bytes and sequences cut short
    all raise [UnicodeDecodeError]. *)
Fixpoint decode (bs : bytes) : result str :=
  let more (c : N) (rest : result str) : result str :=
    match rest with
    | Ok s => Ok (c :: s)
    | Raise e => Raise e
    end in
  match bs with
  | [] => Ok []
  | b0 :: r0 =>
      let x0 := Byte.to_N b0 in
      if (x0 <? 0x80)%N then more x0 (decode r0)
      else if (x0 <? 0xC0)%N then Raise UnicodeDecodeError
      else if (x0 <? 0xE0)%N then
        match r0 with
        | b1 :: r1 =>
            match continuation b1 with
            | Some y1 =>
                let c := (N.shiftl (N.land x0 0x1F) 6 + y1)%N in
                if (c <? 0x80)%N then Raise UnicodeDecodeError
                else more c (decode r1)
            | None => Raise UnicodeDecodeError
            end
        | _ => Raise UnicodeDecodeError
        end
      else if (x0 <? 0xF0)%N then
        match r0 with
        | b1 :: b2 :: r2 =>
            match continuation b1, continuation b2 with
            | Some y1, Some y2 =>
                let c := (N.shiftl (N.land x0 0x0F) 12
                          + N.shiftl y1 6 + y2)%N in
                if (c <? 0x800)%N || is_surrogate c
                then Raise UnicodeDecodeError
                else more c (decode r2)
            | _, _ => Raise UnicodeDecodeError
            end
        | _ => Raise UnicodeDecodeError
        end
      else if (x0 <? 0xF8)%N then
        match r0 with
        | b1 :: b2 :: b3 :: r3 =>
            match continuation b1, continuation b2, continuation b3 with
            | Some y1, Some y2, Some y3 =>
                let c := (N.shiftl (N.land x0 0x07) 18 + N.shiftl y1 12
                          + N.shiftl y2 6 + y3)%N in
                if (c <? 0x10000)%N || (0x10FFFF <? c)%N
                then Raise UnicodeDecodeError
                else more c (decode r3)
            | _, _, _ => Raise UnicodeDecodeError
            end
        | _ => Raise UnicodeDecodeError
        end
      else Raise UnicodeDecodeError
  end.

(** ** Statements that read and write state and may raise

    A statement run in state [s] ends in a new state together with
    either a value or the exception raised; the state reached when the
    exception was raised is kept, as it is for a Python object that was
    mutated before the failure. *)

Definition M (S A : Type) : Type := S -> result A * S.

Definition ret {S A : Type} (a : A) : M S A := fun s => (Ok a, s).

Definition bind {S A B : Type} (m : M S A) (k : A -> M S B) : M S B :=
  fun s =>
    match m s with
    | (Ok a, s') => k a s'
    | (Raise e, s') => (Raise e, s')
    end.

(** A call into the runtime that either returns or raises. *)
Definition lift {S A : Type} (r : result A) : M S A := fun s => (r, s).

Definition modify {S : Type} (f : S -> S) : M S unit := fun s => (Ok tt, f s).

Declare Scope stmt_scope.
Delimit Scope stmt_scope with stmt.
Notation "x <- m ;; k" := (bind m (fun x => k))
  (at level 61, m at next level, right associativity) : stmt_scope.
Notation "m ;; k" := (bind m (fun _ => k))
  (at level 61, right associativity) : stmt_scope.
Open Scope stmt_scope.

(** [for x in l: body(x)], stopped by the first exception. *)
Fixpoint for_each {S A : Type} (l : list A) (body : A -> M S unit) : M S unit :=
  match l with
  | [] => ret tt
  | x :: t => body x ;; for_each t body
  end.

(** [p] runs of [body] at [i], [i + step], ...; returns the next value of
    the loop variable.  The count is split in halves so that a loop that
    raises early stops there, however large the count. *)
Fixpoint range_iter {S : Type} (p : positive) (step : Z)
    (body : Z -> M S unit) (i : Z) : M S Z :=
  match p with
  | xH => body i ;; ret (i + step)
  | xO q => j <- range_iter q step body i ;; range_iter q step body j
  | xI q =>
      body i ;;
      j <- range_iter q step body (i + step) ;;
      range_iter q step body j
  end.

(** [for i in range(start, stop, step): body(i)] for a positive [step];
    the range holds [(stop - start + step - 1) // step] values when that
    is positive and none otherwise. *)
Definition for_range {S : Type} (start stop step : Z)
    (body : Z -> M S unit) : M S unit :=
  match (stop - start + step - 1) / step with
  | Zpos p => range_iter p step body start ;; ret tt
  | _ => ret tt
  end.

(** ** FileEntry *)

Record FileEntry : Type := mkFileEntry {
  path : str;
  contents : bytes
}.

(** [FileEntry.size]: [8 + len(self.path) + len(self.contents)].  The
    path is a [str], so [len] counts its code points. *)
Definition size (e : FileEntry) : Z := 8 + len (path e) + len (contents e).

(** ** FTLPack *)

Record FTLPack : Type := mkFTLPack {
  index : list FileEntry;
  index_size : Z
}.

(** [FTLPack()] with no path. *)
Definition FTLPack_init : FTLPack := {| index := []; index_size := 0 |}.

(** *** load

    The state of [load] is the object together with the position of the
    file object [f]; the bytes of the file are fixed. *)

Record load_state : Type := mkLoadState {
  self : FTLPack;
  pos : Z
}.

Definition set_index (l : list FileEntry) : M load_state unit :=
  modify (fun s =>
    {| self := {| index := l; index_size := index_size (self s) |};
       pos := pos s |}).

Definition set_index_size (n : Z) : M load_state unit :=
  modify (fun s =>
    {| self := {| index := index (self s); index_size := n |};
       pos := pos s |}).

(** [self.index.append(e)]. *)
Definition index_append (e : FileEntry) : M load_state unit :=
  modify (fun s =>
    {| self := {| index := index (self s) ++ [e];
                  index_size := index_size (self s) |};
       pos := pos s |}).

(** [f.seek(o)] for [o >= 0]; seeking past the end is allowed. *)
Definition f_seek (o : Z) : M load_state unit :=
  modify (fun s => {| self := self s; pos := o |}).

(** [f.read(n)] for [n >= 0] on a file opened with ['rb']: at most [n]
    bytes from the current position, fewer (possibly none) when the file
    ends first; the position advances by the number of bytes returned. *)
Definition f_read (data : bytes) (n : Z) : M load_state bytes :=
  fun s =>
    let bs := takeZ n (dropZ (pos s) data) in
    (Ok bs, {| self := self s; pos := pos s + len bs |}).

(** The body of the loop over the index slots. *)
Definition load_slot (data : bytes) (index_offset : Z) : M load_state unit :=
  f_seek index_offset ;;
  bs <- f_read data 4 ;;
  offset <- lift (unpack_L bs) ;;
  if offset >? 0 then
    f_seek offset ;;
    hd <- f_read data 8 ;;
    sp <- lift (unpack_LL hd) ;;
    let '(size, path_len) := sp in
    pbs <- f_read data path_len ;;
    p <- lift (decode pbs) ;;
    c <- f_read data size ;;
    index_append {| path := p; contents := c |}
  else ret tt.

Definition load_body (data : bytes) : M load_state unit :=
  set_index [] ;;
  bs <- f_read data 4 ;;
  n <- lift (unpack_L bs) ;;
  set_index_size n ;;
  for_range 4 (4 + 4 * n) 4 (load_slot data) ;;
  f_seek (4 + 4 * n).

(** [self.load(filename)] where the file [filename] holds [data]: the
    outcome and the object afterwards. *)
Definition load (this : FTLPack) (data : bytes) : result unit * FTLPack :=
  let (r, s) := load_body data {| self := this; pos := 0 |} in (r, self s).

(** *** save

    The state of the [with] block is the bytes written to [f] so far. *)

Definition f_write (bs : bytes) : M bytes unit :=
  modify (fun out => out ++ bs).

(** The first loop: one index slot per entry; [offset] is the local
    variable, returned as it stands after the loop. *)
Fixpoint save_offsets (es : list FileEntry) (offset : Z) : M bytes Z :=
  match es with
  | [] => ret offset
  | entry :: t =>
      bs <- lift (pack_L offset) ;;
      f_write bs ;;
      save_offsets t (offset + size entry)
  end.

(** The body of the second loop: one record. *)
Definition save_record (entry : FileEntry) : M bytes unit :=
  hd <- lift (pack_LL (len (contents entry)) (len (path entry))) ;;
  f_write hd ;;
  pbs <- lift (encode (path entry)) ;;
  f_write pbs ;;
  f_write (contents entry).

Definition save_body (this : FTLPack) : M bytes unit :=
  hd <- lift (pack_L (index_size this)) ;;
  f_write hd ;;
  save_offsets (index this) (4 + 4 * index_size this) ;;
  f_write (bytes_mul (bytes_mul [x00] 4)
             (index_size this - len (index this))) ;;
  for_each (index this) save_record.

(** [self.save(filename)].  [target] is what the file [filename] holds
    before the call, [None] when it does not exist; the second component
    is what it holds afterwards.  Opening with ['wb'] creates or empties
    the file; what was written before an exception stays in it. *)
Definition save (this : FTLPack) (target : option bytes)
  : result unit * option bytes :=
  if len (index this) >? index_size this then
    (Raise (FTLPackError (len (index this)) (index_size this)), target)
  else
    let (r, out) := save_body this [] in (r, Some out).

(** *** construct

    What [construct] asks of the file system: [glob.iglob] over
    [os.path.join(path, '**')] with [recursive=True], [os.path.islink],
    [os.readlink], [os.path.isfile], reading a whole file opened with
    ['rb'], and the separator [os.path.sep], one character on every
    platform. *)
Record FileSystem : Type := mkFileSystem {
  fs_sep : N;
  fs_iglob : str -> list str;
  fs_islink : str -> bool;
  fs_readlink : str -> result str;
  fs_isfile : str -> bool;
  fs_read : str -> result bytes
}.

(** [s.replace(old, '/')] for a one-character [old]. *)
Definition replace_sep (old : N) (s : str) : str :=
  map (fun c => if (c =? old)%N then 0x2F%N else c) s.

(** The body of the loop of [construct]; the state is [self.index]. *)
Definition construct_step (fs : FileSystem) (clip : Z) (p : str)
  : M (list FileEntry) unit :=
  p' <- (if fs_islink fs p then lift (fs_readlink fs p) else ret p) ;;
  if negb (fs_isfile fs p') then ret tt
  else
    c <- lift (fs_read fs p') ;;
    modify (fun idx =>
      idx ++ [{| path := replace_sep (fs_sep fs) (dropZ clip p');
                 contents := c |}]).

(** [self.construct(path, min_index)]. *)
Definition construct (fs : FileSystem) (this : FTLPack) (root : str)
    (min_index : Z) : result unit * FTLPack :=
  let clip := len root + 1 in
  match for_each (fs_iglob fs root) (construct_step fs clip) [] with
  | (Ok _, idx) =>
      (Ok tt, {| index := idx; index_size := Z.max (len idx) min_index |})
  | (Raise e, idx) =>
      (Raise e, {| index := idx; index_size := index_size this |})
  end.

(** [min_index] defaults to 2048. *)
Definition construct_default (fs : FileSystem) (this : FTLPack) (root : str)
  : result unit * FTLPack :=
  construct fs this root 2048.


(** ** Vocabulary of the statements *)

(** What [f.read(n)] returns at position [o]. *)
Definition read_at (data : bytes) (o n : Z) : bytes := takeZ n (dropZ o data).

(** The unsigned 32-bit field at offset [o], when the file holds all four
    of its bytes. *)
Definition u32_at (data : bytes) (o : Z) : option Z :=
  match unpack_L (read_at data o 4) with
  | Ok v => Some v
  | Raise _ => None
  end.

(** The file ends inside a fixed-size field that [load] reads: the
    header, one of the index slots the header announces, or the pair of
    length fields of a record that a non-zero slot points to. *)
Definition cut_short (data : bytes) : Prop :=
  len data < 4 \/
  exists n, u32_at data 0 = Some n /\
    exists i, 0 <= i < n /\
      (len data < 4 + 4 * i + 4 \/
       exists o, u32_at data (4 + 4 * i) = Some o /\ 0 < o /\ len data < o + 8).

(** The loop over a range, one run of the body after the other. *)
Fixpoint for_count {S : Type} (k : nat) (step : Z) (body : Z -> M S unit)
    (i : Z) : M S unit :=
  match k with
  | O => ret tt
  | Datatypes.S k' => body i ;; for_count k' step body (i + step)
  end.

(** A string of ASCII characters only: each is one byte in UTF-8. *)
Definition is_ascii (s : str) : bool := forallb (fun c => (c <? 0x80)%N) s.

(** The string whose characters are the given ASCII bytes. *)
Definition ascii_str (bs : bytes) : str := map Byte.to_N bs.

(** [s.encode()] returns, it does not raise. *)
Definition encodable (s : str) : Prop := exists bs, encode s = Ok bs.

(** ** Archives and files used as examples *)

(** Entries [("a.txt", b"hi"), ("b/c.txt", b"bye")], index size 2. *)
Definition scenario : FTLPack :=
  {| index :=
       [ {| path := ascii_str ["a"; "."; "t"; "x"; "t"]%byte;
            contents := ["h"; "i"]%byte |};
         {| path := ascii_str ["b"; "/"; "c"; "."; "t"; "x"; "t"]%byte;
            contents := ["b"; "y"; "e"]%byte |} ];
     index_size := 2 |}.

Definition scenario_bytes : bytes :=
  [x02; x00; x00; x00]
  ++ [x0c; x00; x00; x00]
  ++ [x1b; x00; x00; x00]
  ++ ([x02; x00; x00; x00] ++ [x05; x00; x00; x00]
      ++ ["a"; "."; "t"; "x"; "t"]%byte ++ ["h"; "i"]%byte)
  ++ ([x03; x00; x00; x00] ++ [x07; x00; x00; x00]
      ++ ["b"; "/"; "c"; "."; "t"; "x"; "t"]%byte ++ ["b"; "y"; "e"]%byte).

(** The one-character string U+00E9; its UTF-8 form is the two bytes
    [C3 A9]. *)
Definition e_acute : str := [0xE9%N].

(** U+00E9 followed by ["a"]: two characters, three bytes. *)
Definition e_acute_a : str := [0xE9%N; 0x61%N].

(** An archive whose index is larger than its index size. *)
Definition overfull : FTLPack :=
  {| index := index scenario; index_size := 1 |}.

(** A tree [d] with the files [d/a] and [d/sub/b] on a platform whose
    separator is ['/']. *)
Definition str_eqb (a b : str) : bool :=
  if list_eq_dec N.eq_dec a b then true else false.

Definition example_fs : FileSystem :=
  {| fs_sep := 0x2F%N;
     fs_iglob := fun root =>
       [ ascii_str ["d"; "/"]%byte;
         ascii_str ["d"; "/"; "a"]%byte;
         ascii_str ["d"; "/"; "s"; "u"; "b"]%byte;
         ascii_str ["d"; "/"; "s"; "u"; "b"; "/"; "b"]%byte ];
     fs_islink := fun _ => false;
     fs_readlink := fun _ => Raise OSError;
     fs_isfile := fun p =>
       str_eqb p (ascii_str ["d"; "/"; "a"]%byte)
       || str_eqb p (ascii_str ["d"; "/"; "s"; "u"; "b"; "/"; "b"]%byte);
     fs_read := fun p =>
       if str_eqb p (ascii_str ["d"; "/"; "a"]%byte) then Ok ["1"]%byte
       else Ok ["2"; "2"]%byte |}.

(** One entry, path U+00E9 "a", contents [b"x"]. *)
Definition accented : FTLPack :=
  {| index := [ {| path := e_acute_a; contents := ["x"]%byte |} ];
     index_size := 1 |}.

(** One entry, path U+00E9, no contents, in an index of two slots. *)
Definition accented_spare : FTLPack :=
  {| index := [ {| path := e_acute; contents := [] |} ]; index_size := 2 |}.

(** A statement raises only exceptions that satisfy [P]. *)
Definition raises_only {S A : Type} (P : exn -> Prop) (m : M S A) : Prop :=
  forall s e s', m s = (Raise e, s') -> P e.

(** What [load] needs of the slot at [index_offset] to get past it: the
    four bytes of the slot and, when the slot is not zero, the eight bytes
    of the two length fields at the offset it holds. *)
Definition slot_readable (data : bytes) (index_offset : Z) : Prop :=
  exists o, u32_at data index_offset = Some o
    /\ (0 < o -> exists sz pl, unpack_LL (read_at data o 8) = Ok (sz, pl)).

(** The exceptions of [load]. *)
Definition load_exn (e : exn) : Prop :=
  e = struct_error \/ e = UnicodeDecodeError.

(** A header that announces one slot, a slot that points to offset 8, and
    there a record that announces five bytes of contents and holds none. *)
Definition short_contents : bytes :=
  [x01; x00; x00; x00] ++ [x08; x00; x00; x00]
  ++ [x05; x00; x00; x00] ++ [x00; x00; x00; x00].

(** A header that announces one slot, and nothing after it. *)
Definition header_only : bytes := [x01; x00; x00; x00].

(** The exceptions of [save] once the file is open. *)
Definition save_exn (e : exn) : Prop :=
  e = struct_error \/ e = UnicodeEncodeError.

(** A length that the 4-byte field of a record cannot hold: the contents
    have 2^32 bytes or more, or the path is ASCII -- as many bytes as
    characters -- and has 2^32 of them or more. *)
Definition length_overflow (entry : FileEntry) : Prop :=
  2 ^ 32 <= len (contents entry)
  \/ (is_ascii (path entry) = true /\ 2 ^ 32 <= len (path entry)).

(** 2^32 zero bytes. *)
Definition big_contents : bytes := repeat x00 (Z.to_nat (2 ^ 32)).

(** One entry whose contents are too long for the length field. *)
Definition big_pack : FTLPack :=
  {| index := [ {| path := ascii_str ["a"]%byte; contents := big_contents |} ];
     index_size := 1 |}.

(** The same entry after one whose path is the lone surrogate U+D800. *)
Definition surrogate_then_big : FTLPack :=
  {| index := [ {| path := [0xD800%N]; contents := [] |};
                {| path := ascii_str ["a"]%byte; contents := big_contents |} ];
     index_size := 2 |}.

(** The offsets [save] writes into the index slots of the entries: the
    values of its local variable [offset]. *)
Fixpoint slot_offsets (es : list FileEntry) (offset : Z) : list Z :=
  match es with
  | [] => []
  | entry :: t => offset :: slot_offsets t (offset + size entry)
  end.

(** The sum of the sizes of the entries. *)
Definition total_size (es : list FileEntry) : Z :=
  fold_right (fun entry acc => size entry + acc) 0 es.

(** The record of an entry whose path is ASCII. *)
Definition ascii_record (entry : FileEntry) : bytes :=
  le32 (len (contents entry)) ++ le32 (len (path entry))
  ++ map byte_of_N (path entry) ++ contents entry.

(** Every path of the index is ASCII. *)
Definition ascii_paths (es : list FileEntry) : Prop :=
  Forall (fun entry => is_ascii (path entry) = true) es.

(** The index table [save] writes: the header, one slot per entry, and
    zero bytes for the slots left over. *)
Definition index_table (this : FTLPack) : bytes :=
  le32 (index_size this)
  ++ concat (map le32 (slot_offsets (index this) (4 + 4 * index_size this)))
  ++ bytes_mul (bytes_mul [x00] 4) (index_size this - len (index this)).

(** The index table after the header, slot by slot. *)
Definition slot_chunks (this : FTLPack) : list bytes :=
  map le32 (slot_offsets (index this) (4 + 4 * index_size this))
  ++ repeat (bytes_mul [x00] 4) (Z.to_nat (index_size this - len (index this))).

(** The bytes of an archive whose paths are all ASCII: the index table
    and the records. *)
Definition ascii_image (this : FTLPack) : bytes :=
  index_table this ++ concat (map ascii_record (index this)).
(** * Properties *)

Ltac arith_args := repeat (f_equal; try lia).

(** ** Sequences and slices *)

Arguments len : simpl never.

Lemma len_nil {A : Type} : len (@nil A) = 0.
Proof. reflexivity. Qed.

Lemma len_cons {A : Type} (x : A) (l : list A) : len (x :: l) = 1 + len l.
Proof. unfold len. simpl length. lia. Qed.

Lemma len_app {A : Type} (a b : list A) : len (a ++ b) = len a + len b.
Proof. unfold len. rewrite length_app. lia. Qed.

Lemma len_nonneg {A : Type} (l : list A) : 0 <= len l.
Proof. unfold len. lia. Qed.

Lemma len_map {A B : Type} (f : A -> B) (l : list A) : len (map f l) = len l.
Proof. unfold len. now rewrite length_map. Qed.

Lemma len_repeat {A : Type} (x : A) (n : nat) : len (repeat x n) = Z.of_nat n.
Proof. unfold len. now rewrite repeat_length. Qed.

Lemma dropZ_cons {A : Type} (k : Z) (x : A) (t : list A) :
  dropZ k (x :: t) = if k <=? 0 then x :: t else dropZ (k - 1) t.
Proof. reflexivity. Qed.

Lemma takeZ_cons {A : Type} (n : Z) (x : A) (t : list A) :
  takeZ n (x :: t) = if n <=? 0 then [] else x :: takeZ (n - 1) t.
Proof. reflexivity. Qed.

Lemma dropZ_nonpos {A : Type} (k : Z) (l : list A) : k <= 0 -> dropZ k l = l.
Proof.
  intros Hk. destruct l as [|x t]; simpl; [reflexivity|].
  destruct (Z.leb_spec k 0); [reflexivity | lia].
Qed.

Lemma dropZ_app {A : Type} (a b : list A) (k : Z) :
  0 <= k -> dropZ (len a + k) (a ++ b) = dropZ k b.
Proof.
  intros Hk. induction a as [|x a IH]; simpl app.
  - rewrite len_nil. now rewrite Z.add_0_l.
  - rewrite dropZ_cons, len_cons. pose proof (len_nonneg a).
    destruct (Z.leb_spec (1 + len a + k) 0); [lia|].
    rewrite <- IH. f_equal. lia.
Qed.

Lemma dropZ_app_len {A : Type} (a b : list A) : dropZ (len a) (a ++ b) = b.
Proof.
  replace (len a) with (len a + 0) by lia.
  rewrite dropZ_app by lia. now apply dropZ_nonpos.
Qed.

Lemma dropZ_past {A : Type} (k : Z) (l : list A) : len l <= k -> dropZ k l = [].
Proof.
  revert k. induction l as [|x l IH]; intros k Hk; simpl; [reflexivity|].
  rewrite len_cons in Hk. pose proof (len_nonneg l).
  destruct (Z.leb_spec k 0); [lia|]. apply IH. lia.
Qed.

Lemma len_dropZ {A : Type} (k : Z) (l : list A) :
  0 <= k -> len (dropZ k l) = Z.max 0 (len l - k).
Proof.
  revert k. induction l as [|x l IH]; intros k Hk; simpl dropZ.
  - rewrite len_nil. lia.
  - pose proof (len_nonneg l).
    destruct (Z.leb_spec k 0).
    + rewrite len_cons. lia.
    + rewrite IH by lia. rewrite len_cons. lia.
Qed.

Lemma takeZ_nonpos {A : Type} (n : Z) (l : list A) : n <= 0 -> takeZ n l = [].
Proof.
  intros Hn. destruct l as [|x t]; simpl; [reflexivity|].
  destruct (Z.leb_spec n 0); [reflexivity | lia].
Qed.

Lemma takeZ_app {A : Type} (a b : list A) (n : Z) :
  0 <= n -> takeZ (len a + n) (a ++ b) = a ++ takeZ n b.
Proof.
  intros Hn. induction a as [|x a IH]; simpl app.
  - rewrite len_nil. now rewrite Z.add_0_l.
  - rewrite takeZ_cons, len_cons. pose proof (len_nonneg a).
    destruct (Z.leb_spec (1 + len a + n) 0); [lia|].
    rewrite <- IH. arith_args.
Qed.

Lemma takeZ_app_len {A : Type} (a b : list A) : takeZ (len a) (a ++ b) = a.
Proof.
  replace (len a) with (len a + 0) by lia.
  rewrite takeZ_app by lia. rewrite takeZ_nonpos by lia. apply app_nil_r.
Qed.

Lemma takeZ_all {A : Type} (n : Z) (l : list A) : len l <= n -> takeZ n l = l.
Proof.
  revert n. induction l as [|x l IH]; intros n Hn; simpl; [reflexivity|].
  rewrite len_cons in Hn. pose proof (len_nonneg l).
  destruct (Z.leb_spec n 0); [lia|]. f_equal. apply IH. lia.
Qed.

Lemma len_takeZ {A : Type} (n : Z) (l : list A) :
  0 <= n -> len (takeZ n l) = Z.min n (len l).
Proof.
  revert n. induction l as [|x l IH]; intros n Hn; simpl takeZ.
  - rewrite len_nil. lia.
  - pose proof (len_nonneg l).
    destruct (Z.leb_spec n 0).
    + rewrite len_nil, len_cons. lia.
    + rewrite !len_cons, IH by lia. lia.
Qed.

Lemma len_read_at (data : bytes) (o n : Z) :
  0 <= o -> 0 <= n -> len (read_at data o n) = Z.min n (Z.max 0 (len data - o)).
Proof.
  intros Ho Hn. unfold read_at. rewrite len_takeZ, len_dropZ by lia. reflexivity.
Qed.

Lemma read_at_app (a b c : bytes) :
  read_at (a ++ b ++ c) (len a) (len b) = b.
Proof. unfold read_at. rewrite dropZ_app_len. apply takeZ_app_len. Qed.

(** ** Bytes and 32-bit fields *)

Lemma to_N_byte_of_N (n : N) : Byte.to_N (byte_of_N n) = (n mod 256)%N.
Proof.
  unfold byte_of_N.
  destruct (Byte.of_N (n mod 256)) as [b|] eqn:E.
  - now apply Byte.to_of_N.
  - apply Byte.of_N_None_iff in E.
    pose proof (N.mod_upper_bound n 256). lia.
Qed.

Lemma byte_of_to_N (b : byte) : byte_of_N (Byte.to_N b) = b.
Proof.
  unfold byte_of_N. pose proof (Byte.to_N_bounded b).
  rewrite N.mod_small by lia. now rewrite Byte.of_to_N.
Qed.

Lemma len_le32 (n : Z) : len (le32 n) = 4.
Proof. reflexivity. Qed.

Lemma le32_value_le32 (n : Z) :
  0 <= n < 2 ^ 32 ->
  match le32 n with
  | [b0; b1; b2; b3] => le32_value b0 b1 b2 b3 = n
  | _ => False
  end.
Proof.
  intros Hn. unfold le32, le32_value.
  rewrite !to_N_byte_of_N, !N.shiftr_div_pow2.
  assert (Hm : (Z.to_N n < 2 ^ 32)%N) by lia.
  rewrite <- (Z2N.id n) at 5 by lia. f_equal.
  generalize dependent (Z.to_N n). intros m Hm.
  change (2 ^ 8)%N with 256%N. change (2 ^ 16)%N with 65536%N.
  change (2 ^ 24)%N with 16777216%N. change (2 ^ 32)%N with 4294967296%N in Hm.
  zify. Z.to_euclidean_division_equations. lia.
Qed.

Lemma unpack_pack_L (n : Z) (bs : bytes) : pack_L n = Ok bs -> unpack_L bs = Ok n.
Proof.
  unfold pack_L. intros H.
  destruct (Z.leb_spec 0 n); destruct (Z.ltb_spec n (2 ^ 32));
    simpl in H; try discriminate.
  injection H as <-. pose proof (le32_value_le32 n ltac:(lia)) as V.
  unfold unpack_L. destruct (le32 n) as [|b0 [|b1 [|b2 [|b3 [|]]]]];
    try contradiction. now rewrite V.
Qed.

(** ** Running statements *)

Lemma bind_ok {S A B : Type} (m : M S A) (k : A -> M S B) (s s' : S) (a : A) :
  m s = (Ok a, s') -> bind m k s = k a s'.
Proof. intros H. unfold bind. now rewrite H. Qed.

Lemma bind_raise {S A B : Type} (m : M S A) (k : A -> M S B) (s s' : S) (e : exn) :
  m s = (Raise e, s') -> bind m k s = (Raise e, s').
Proof. intros H. unfold bind. now rewrite H. Qed.

Lemma bind_inv_ok {S A B : Type} (m : M S A) (k : A -> M S B) (s s2 : S) (b : B) :
  bind m k s = (Ok b, s2) ->
  exists a s1, m s = (Ok a, s1) /\ k a s1 = (Ok b, s2).
Proof.
  unfold bind. destruct (m s) as [[a|e] s1]; intros H.
  - now exists a, s1.
  - discriminate.
Qed.

Lemma bind_assoc {S A B C : Type} (m : M S A) (k : A -> M S B)
    (h : B -> M S C) (s : S) :
  bind (bind m k) h s = bind m (fun a => bind (k a) h) s.
Proof. unfold bind. destruct (m s) as [[a|e] s1]; reflexivity. Qed.

Lemma bind_ext {S A B : Type} (m : M S A) (k1 k2 : A -> M S B) (s : S) :
  (forall a s1, k1 a s1 = k2 a s1) -> bind m k1 s = bind m k2 s.
Proof. intros H. unfold bind. destruct (m s) as [[a|e] s1]; auto. Qed.

Lemma bind_ret_l {S A B : Type} (a : A) (k : A -> M S B) (s : S) :
  bind (ret a) k s = k a s.
Proof. reflexivity. Qed.

Lemma for_count_add {S : Type} (a b : nat) (step : Z) (body : Z -> M S unit)
    (i : Z) (s : S) :
  for_count (a + b) step body i s
  = (for_count a step body i ;;
     for_count b step body (i + step * Z.of_nat a)) s.
Proof.
  revert i s. induction a as [|a IH]; intros i s.
  - cbn [Nat.add for_count]. rewrite bind_ret_l. arith_args.
  - change (Datatypes.S a + b)%nat with (Datatypes.S (a + b)).
    cbn [for_count]. rewrite bind_assoc. apply bind_ext. intros _ s1.
    rewrite IH. apply bind_ext. intros _ s2. arith_args.
Qed.

Lemma range_iter_for_count {S : Type} (p : positive) (step : Z)
    (body : Z -> M S unit) (i : Z) (s : S) :
  range_iter p step body i s
  = (for_count (Pos.to_nat p) step body i ;; ret (i + step * Z.pos p)) s.
Proof.
  revert i s. induction p as [q IH|q IH|]; intros i s.
  - cbn [range_iter].
    replace (Pos.to_nat q~1)
      with (Datatypes.S (Pos.to_nat q + Pos.to_nat q)) by lia.
    cbn [for_count]. rewrite bind_assoc. apply bind_ext. intros _ s1.
    unfold bind. rewrite IH, for_count_add. unfold bind, ret.
    destruct (for_count (Pos.to_nat q) step body (i + step) s1)
      as [[[]|e] s2]; [|reflexivity].
    rewrite IH. unfold bind, ret.
    replace (i + step + step * Z.of_nat (Pos.to_nat q))
      with (i + step + step * Z.pos q) by lia.
    destruct (for_count (Pos.to_nat q) step body _ s2) as [[[]|e] s3];
      [|reflexivity].
    arith_args.
  - cbn [range_iter].
    replace (Pos.to_nat q~0) with (Pos.to_nat q + Pos.to_nat q)%nat by lia.
    unfold bind. rewrite IH, for_count_add. unfold bind, ret.
    destruct (for_count (Pos.to_nat q) step body i s)
      as [[[]|e] s2]; [|reflexivity].
    rewrite IH. unfold bind, ret.
    replace (i + step * Z.of_nat (Pos.to_nat q)) with (i + step * Z.pos q) by lia.
    destruct (for_count (Pos.to_nat q) step body _ s2) as [[[]|e] s3];
      [|reflexivity].
    arith_args.
  - cbn [range_iter]. change (Pos.to_nat 1) with 1%nat. cbn [for_count].
    rewrite bind_assoc. apply bind_ext. intros _ s1. rewrite bind_ret_l.
    unfold ret. arith_args.
Qed.

(** The loop of [load] over [range(4, 4 + 4 * n, 4)] runs its body [n]
    times. *)
Lemma for_range_slots {S : Type} (n : Z) (body : Z -> M S unit) (s : S) :
  for_range 4 (4 + 4 * n) 4 body s = for_count (Z.to_nat n) 4 body 4 s.
Proof.
  unfold for_range.
  replace ((4 + 4 * n - 4 + 4 - 1) / 4) with n
    by (zify; Z.to_euclidean_division_equations; lia).
  destruct n as [|p|p]; try reflexivity.
  unfold bind. rewrite range_iter_for_count. unfold bind, ret.
  change (Z.to_nat (Z.pos p)) with (Pos.to_nat p).
  destruct (for_count (Pos.to_nat p) 4 body 4 s) as [[[]|e] s1]; reflexivity.
Qed.

(** ** FileEntry.size *)

(** C2.  The size of an entry counts the characters of its path, not the
    bytes of the path's UTF-8 form: for the path U+00E9 with no contents
    the size is 9, while the path encodes to two bytes and the record
    [save] writes for it takes 8 + 2 + 0 = 10 bytes. *)
Theorem size_counts_code_points :
  size {| path := e_acute; contents := [] |} = 9
  /\ encode e_acute = Ok [xc3; xa9]
  /\ 8 + len [xc3; xa9] + len (@nil byte) = 10.
Proof. repeat split. Qed.

(** ** save beyond the index size *)

(** C4.  When the index holds more entries than [index_size], [save]
    raises [FTLPackError] formatted with the number of entries and the
    index size, and the target file is left as it was: it is not even
    opened. *)
Theorem save_index_too_small (this : FTLPack) (target : option bytes) :
  len (index this) > index_size this ->
  save this target
  = (Raise (FTLPackError (len (index this)) (index_size this)), target).
Proof.
  intros H. unfold save.
  destruct (Z.gtb_spec (len (index this)) (index_size this)); [reflexivity|lia].
Qed.

Lemma save_index_too_small_witness :
  len (index overfull) > index_size overfull
  /\ save overfull (Some [x2a]) = (Raise (FTLPackError 2 1), Some [x2a]).
Proof.
  split; [reflexivity|].
  apply (save_index_too_small overfull (Some [x2a])). reflexivity.
Defined.

(** ** The concrete scenario *)

(** C7.  Saving [("a.txt", b"hi"), ("b/c.txt", b"bye")] with index size 2
    writes the header 2, the slots 12 and 27, and the two records; loading
    those bytes into any object gives back the two entries in order and
    the index size 2. *)
Theorem scenario_save_load :
  (forall target, save scenario target = (Ok tt, Some scenario_bytes))
  /\ (forall this, load this scenario_bytes = (Ok tt, scenario)).
Proof. split; intros; reflexivity. Qed.

(** ** construct *)

Lemma construct_ok_index_size (fs : FileSystem) (this this' : FTLPack)
    (root : str) (min_index : Z) (r : result unit) :
  construct fs this root min_index = (r, this') ->
  r = Ok tt ->
  index_size this' = Z.max (len (index this')) min_index.
Proof.
  unfold construct.
  destruct (for_each _ _ _) as [[u|e] idx]; intros H ->.
  - now injection H as <-.
  - discriminate.
Qed.



(** ** load and the object it is called on *)

(** C10.  A load that returns leaves the same entries and the same index
    size whatever the object held before: loading the same bytes into any
    other object returns too, with an equal result. *)
Theorem load_forgets_prior_state (this1 this2 result1 : FTLPack) (data : bytes) :
  load this1 data = (Ok tt, result1) ->
  load this2 data = (Ok tt, result1).
Proof.
  unfold load, load_body, set_index, modify, f_read, lift, bind.
  cbn [self pos index index_size].
  destruct (unpack_L (takeZ 4 (dropZ 0 data))) as [n|e].
  - unfold set_index_size, modify. cbn [self pos index index_size]. auto.
  - discriminate.
Qed.

Lemma load_forgets_prior_state_witness :
  load scenario scenario_bytes = (Ok tt, scenario)
  /\ load overfull scenario_bytes = (Ok tt, scenario)
  /\ load accented scenario_bytes = (Ok tt, scenario).
Proof.
  assert (H : load scenario scenario_bytes = (Ok tt, scenario)) by reflexivity.
  split; [exact H|]. split.
  - exact (load_forgets_prior_state scenario overfull scenario scenario_bytes H).
  - exact (load_forgets_prior_state scenario accented scenario scenario_bytes H).
Defined.

(** ** Paths outside ASCII *)

(** C3.  For the entry with path U+00E9 "a" and contents [b"x"], [save]
    returns and the record it writes holds the path length 2, the number
    of characters, followed by the three bytes of the UTF-8 path. *)
Theorem save_path_length_field :
  save accented None
  = (Ok tt,
     Some ([x01; x00; x00; x00] ++ [x08; x00; x00; x00]
           ++ [x01; x00; x00; x00] ++ [x02; x00; x00; x00]
           ++ [xc3; xa9; x61] ++ ["x"]%byte))
  /\ encode e_acute_a = Ok [xc3; xa9; x61]
  /\ len [xc3; xa9; x61] = 3.
Proof. repeat split. Qed.

(** C1.  Saving the entry with path U+00E9 "a" and contents [b"x"] and
    loading the bytes written returns a different entry: the path U+00E9
    with the contents [b"a"]. *)
Theorem load_save_accented :
  exists out,
    save accented None = (Ok tt, Some out)
    /\ load FTLPack_init out
       = (Ok tt,
          {| index := [ {| path := e_acute; contents := ["a"]%byte |} ];
             index_size := 1 |})
    /\ index accented
       <> [ {| path := e_acute; contents := ["a"]%byte |} ].
Proof.
  eexists. split; [reflexivity|]. split; [reflexivity|]. discriminate.
Qed.

(** C6.  Saving one entry with path U+00E9 in an index of two slots
    returns, with the second slot zero; loading the bytes written raises
    [UnicodeDecodeError] and leaves the index empty instead of holding
    one entry. *)
Theorem load_save_accented_spare :
  exists out,
    save accented_spare None = (Ok tt, Some out)
    /\ u32_at out 4 = Some 12
    /\ u32_at out 8 = Some 0
    /\ load FTLPack_init out
       = (Raise UnicodeDecodeError, {| index := []; index_size := 2 |}).
Proof. eexists. repeat split. Qed.

(** ** Which exceptions a statement raises *)

Lemma raises_only_ret {S A : Type} (P : exn -> Prop) (a : A) :
  raises_only (S := S) P (ret a).
Proof. intros s e s' H. discriminate. Qed.

Lemma raises_only_modify {S : Type} (P : exn -> Prop) (f : S -> S) :
  raises_only P (modify f).
Proof. intros s e s' H. discriminate. Qed.

Lemma raises_only_f_read (P : exn -> Prop) (data : bytes) (n : Z) :
  raises_only P (f_read data n).
Proof. intros s e s' H. discriminate. Qed.

Lemma raises_only_lift {S A : Type} (P : exn -> Prop) (r : result A) :
  (forall e, r = Raise e -> P e) -> raises_only (S := S) P (lift r).
Proof. intros Hr s e s' H. injection H as H _. auto. Qed.

Lemma raises_only_bind {S A B : Type} (P : exn -> Prop) (m : M S A)
    (k : A -> M S B) :
  raises_only P m -> (forall a, raises_only P (k a)) ->
  raises_only P (bind m k).
Proof.
  intros Hm Hk s e s' H. unfold bind in H.
  destruct (m s) as [[a|e1] s1] eqn:E.
  - exact (Hk a s1 e s' H).
  - injection H as <- _. exact (Hm s e1 s1 E).
Qed.

Lemma raises_only_range_iter {S : Type} (P : exn -> Prop) (p : positive)
    (step : Z) (body : Z -> M S unit) :
  (forall i, raises_only P (body i)) ->
  forall i, raises_only P (range_iter p step body i).
Proof.
  intros Hb. induction p as [q IH|q IH|]; intros i; cbn [range_iter];
    repeat (apply raises_only_bind; intros); auto using raises_only_ret.
Qed.

Lemma raises_only_for_range {S : Type} (P : exn -> Prop) (start stop step : Z)
    (body : Z -> M S unit) :
  (forall i, raises_only P (body i)) ->
  raises_only P (for_range start stop step body).
Proof.
  intros Hb. unfold for_range.
  destruct ((stop - start + step - 1) / step);
    try apply raises_only_ret.
  apply raises_only_bind; intros;
    auto using raises_only_ret, raises_only_range_iter.
Qed.

Lemma raises_only_for_each {S A : Type} (P : exn -> Prop) (l : list A)
    (body : A -> M S unit) :
  (forall x, raises_only P (body x)) -> raises_only P (for_each l body).
Proof.
  intros Hb. induction l as [|x t IH]; cbn [for_each].
  - apply raises_only_ret.
  - apply raises_only_bind; auto.
Qed.

Lemma unpack_L_raises (bs : bytes) (e : exn) :
  unpack_L bs = Raise e -> e = struct_error.
Proof.
  unfold unpack_L.
  destruct bs as [|b0 [|b1 [|b2 [|b3 [|]]]]]; intros H;
    try discriminate; now injection H.
Qed.

Lemma unpack_LL_raises (bs : bytes) (e : exn) :
  unpack_LL bs = Raise e -> e = struct_error.
Proof.
  unfold unpack_LL.
  destruct bs as [|b0 [|b1 [|b2 [|b3 [|b4 [|b5 [|b6 [|b7 [|]]]]]]]]];
    intros H; try discriminate; now injection H.
Qed.

Lemma unpack_L_len (bs : bytes) (v : Z) : unpack_L bs = Ok v -> len bs = 4.
Proof.
  unfold unpack_L.
  destruct bs as [|b0 [|b1 [|b2 [|b3 [|]]]]]; intros H;
    try discriminate; reflexivity.
Qed.

Lemma unpack_LL_len (bs : bytes) (v : Z * Z) : unpack_LL bs = Ok v -> len bs = 8.
Proof.
  unfold unpack_LL.
  destruct bs as [|b0 [|b1 [|b2 [|b3 [|b4 [|b5 [|b6 [|b7 [|]]]]]]]]];
    intros H; try discriminate; reflexivity.
Qed.

Lemma decode_raises (bs : bytes) (e : exn) :
  decode bs = Raise e -> e = UnicodeDecodeError.
Proof.
  remember (length bs) as n eqn:Hn. revert bs Hn.
  induction n as [n IH] using lt_wf_ind. intros bs Hn.
  assert (Hrec : forall r : bytes, (length r < n)%nat ->
            forall c, match decode r with
                      | Ok s => Ok (c :: s)
                      | Raise e0 => Raise e0
                      end = Raise e -> e = UnicodeDecodeError).
  { intros r Hr c H. destruct (decode r) eqn:E; [discriminate|].
    injection H as <-. exact (IH _ Hr r eq_refl E). }
  destruct bs as [|b0 r0]; [discriminate|]. cbn [decode].
  cbv zeta. subst n. cbn [length] in Hrec.
  repeat match goal with
  | |- Raise _ = Raise _ -> _ => intros H; now injection H
  | |- (if ?c then _ else _) = _ -> _ => destruct c
  | |- match continuation ?b with _ => _ end = _ -> _ =>
      destruct (continuation b)
  | |- match ?l with [] => _ | _ :: _ => _ end = _ -> _ => destruct l
  | |- match decode ?r with _ => _ end = _ -> _ =>
      apply Hrec; cbn [length]; lia
  end.
Qed.

(** ** load on files that end too early *)

Lemma load_slot_raises (data : bytes) (index_offset : Z) :
  raises_only load_exn (load_slot data index_offset).
Proof.
  unfold load_slot, f_seek, index_append, load_exn.
  repeat first
    [ apply raises_only_modify | apply raises_only_f_read
    | apply raises_only_ret
    | apply raises_only_lift; intros e He;
      first [ left; exact (unpack_L_raises _ _ He)
            | left; exact (unpack_LL_raises _ _ He)
            | right; exact (decode_raises _ _ He) ]
    | apply raises_only_bind; [|intros]
    | match goal with
      | |- raises_only _ (if ?c then _ else _) => destruct c
      | |- raises_only _ (let '(_, _) := ?p in _) => destruct p
      end ].
Qed.

Lemma load_body_raises (data : bytes) : raises_only load_exn (load_body data).
Proof.
  unfold load_body, set_index, set_index_size, f_seek.
  repeat first
    [ apply raises_only_modify | apply raises_only_f_read
    | apply raises_only_for_range; intros; apply load_slot_raises
    | apply raises_only_lift; intros e He; left; exact (unpack_L_raises _ _ He)
    | apply raises_only_bind; [|intros] ].
Qed.

Lemma load_raises (this this' : FTLPack) (data : bytes) (e : exn) :
  load this data = (Raise e, this') -> load_exn e.
Proof.
  unfold load.
  destruct (load_body data _) as [r s] eqn:E. intros H.
  injection H as -> _. exact (load_body_raises data _ _ _ E).
Qed.

Lemma u32_at_inside (data : bytes) (o v : Z) :
  0 <= o -> u32_at data o = Some v -> o + 4 <= len data.
Proof.
  unfold u32_at. intros Ho H.
  destruct (unpack_L (read_at data o 4)) as [w|] eqn:E; [|discriminate].
  apply unpack_L_len in E. rewrite len_read_at in E by lia. lia.
Qed.

Lemma load_slot_ok (data : bytes) (index_offset : Z) (s s' : load_state) :
  load_slot data index_offset s = (Ok tt, s') ->
  slot_readable data index_offset.
Proof.
  unfold load_slot, f_seek, f_read, modify, lift, bind, slot_readable, u32_at,
    read_at.
  cbn [pos self].
  destruct (unpack_L (takeZ 4 (dropZ index_offset data))) as [o|]; [|discriminate].
  intros H. exists o. split; [reflexivity|]. intros Ho.
  destruct (Z.gtb_spec o 0); [|lia].
  destruct (unpack_LL (takeZ 8 (dropZ o data))) as [[sz pl]|]; [|discriminate].
  now exists sz, pl.
Qed.

Lemma for_count_slots_ok (data : bytes) (k : nat) (i : Z) (s s' : load_state) :
  for_count k 4 (load_slot data) i s = (Ok tt, s') ->
  forall j, 0 <= j < Z.of_nat k -> slot_readable data (i + 4 * j).
Proof.
  revert i s. induction k as [|k IH]; intros i s H j Hj; [lia|].
  cbn [for_count] in H. apply bind_inv_ok in H as ([] & s1 & H1 & H2).
  destruct (Z.eq_dec j 0) as [->|Hne].
  - replace (i + 4 * 0) with i by lia. exact (load_slot_ok _ _ _ _ H1).
  - replace (i + 4 * j) with (i + 4 + 4 * (j - 1)) by lia.
    apply (IH _ _ H2). lia.
Qed.

(** A load that returns has read the header and, for each slot the
    header announces, the slot and the length fields it points to. *)
Lemma load_ok_fields (this this' : FTLPack) (data : bytes) :
  load this data = (Ok tt, this') ->
  exists n, u32_at data 0 = Some n
    /\ forall i, 0 <= i < n -> slot_readable data (4 + 4 * i).
Proof.
  unfold load. destruct (load_body data _) as [r s] eqn:E. intros H.
  injection H as -> _. revert E.
  unfold load_body, set_index, set_index_size, modify, f_read, lift.
  unfold bind at 1 2 3 4. cbn [pos self index index_size].
  unfold u32_at, read_at.
  destruct (unpack_L (takeZ 4 (dropZ 0 data))) as [n|]; [|discriminate].
  intros E. exists n. split; [reflexivity|]. intros i Hi.
  apply bind_inv_ok in E as ([] & s1 & E1 & _).
  rewrite for_range_slots in E1.
  apply (for_count_slots_ok _ _ _ _ _ E1). lia.
Qed.




(** ** save and lengths that do not fit in 32 bits *)

Lemma pack_L_raises (n : Z) (e : exn) : pack_L n = Raise e -> e = struct_error.
Proof.
  unfold pack_L. destruct (_ && _); intros H; [discriminate | now injection H].
Qed.

Lemma pack_LL_raises (a b : Z) (e : exn) :
  pack_LL a b = Raise e -> e = struct_error.
Proof.
  unfold pack_LL. destruct (pack_L a), (pack_L b); intros H;
    try discriminate; now injection H.
Qed.

Lemma pack_L_overflow (n : Z) : 2 ^ 32 <= n -> pack_L n = Raise struct_error.
Proof.
  intros H. unfold pack_L.
  destruct (Z.ltb_spec n (2 ^ 32)); [lia|]. now rewrite andb_false_r.
Qed.

Lemma pack_LL_overflow (a b : Z) :
  2 ^ 32 <= a \/ 2 ^ 32 <= b -> pack_LL a b = Raise struct_error.
Proof.
  intros [H|H]; unfold pack_LL; rewrite (pack_L_overflow _ H);
    [|destruct (pack_L a)]; reflexivity.
Qed.

Lemma encode_raises (s : str) (e : exn) :
  encode s = Raise e -> e = UnicodeEncodeError.
Proof.
  induction s as [|c t IH]; cbn [encode]; [discriminate|].
  destruct (encode_char c); [|intros H; now injection H].
  destruct (encode t); [discriminate|].
  intros H. injection H as <-. now apply IH.
Qed.

Lemma save_offsets_raises (es : list FileEntry) (offset : Z) :
  raises_only (fun e => e = struct_error) (save_offsets es offset).
Proof.
  revert offset. induction es as [|entry t IH]; intros offset;
    cbn [save_offsets]; [apply raises_only_ret|].
  apply raises_only_bind;
    [apply raises_only_lift; intros e; apply pack_L_raises | intros bs].
  apply raises_only_bind; [apply raises_only_modify | intros _; apply IH].
Qed.

Lemma save_record_raises (entry : FileEntry) :
  raises_only save_exn (save_record entry).
Proof.
  unfold save_record, f_write, save_exn.
  repeat first
    [ apply raises_only_modify
    | apply raises_only_lift; intros e He;
      first [ left; exact (pack_LL_raises _ _ _ He)
            | right; exact (encode_raises _ _ He) ]
    | apply raises_only_bind; [|intros] ].
Qed.

Lemma save_body_raises (this : FTLPack) : raises_only save_exn (save_body this).
Proof.
  unfold save_body, f_write.
  repeat first
    [ apply raises_only_modify
    | apply raises_only_for_each; intros; apply save_record_raises
    | apply raises_only_lift; intros e He; left; exact (pack_L_raises _ _ He)
    | intros s e s' H; left; exact (save_offsets_raises _ _ s e s' H)
    | apply raises_only_bind; [|intros] ].
Qed.

Lemma length_overflow_pack (entry : FileEntry) :
  length_overflow entry ->
  pack_LL (len (contents entry)) (len (path entry)) = Raise struct_error.
Proof.
  intros [H|[_ H]]; apply pack_LL_overflow; auto.
Qed.

(** The loop over the records stops with [struct.error] at the first
    length that does not fit, when the paths before it encode; whatever
    those paths, it does not return. *)
Lemma save_records_overflow (es : list FileEntry) (i : nat) (entry : FileEntry)
    (out : bytes) :
  nth_error es i = Some entry ->
  length_overflow entry ->
  exists e out',
    for_each es save_record out = (Raise e, out')
    /\ ((forall j entry', (j < i)%nat -> nth_error es j = Some entry' ->
           encodable (path entry')) -> e = struct_error).
Proof.
  revert i out. induction es as [|e0 t IH]; intros i out Hnth Hov.
  - destruct i; discriminate.
  - cbn [for_each]. destruct i as [|i].
    + injection Hnth as ->. exists struct_error, out. split; [|reflexivity].
      unfold bind, save_record, bind, lift.
      now rewrite (length_overflow_pack _ Hov).
    + cbn [nth_error] in Hnth.
      unfold bind. destruct (save_record e0 out) as [[[]|e1] out1] eqn:E.
      * destruct (IH i out1 Hnth Hov) as (e & out' & Hrun & Hkind).
        exists e, out'. split; [exact Hrun|]. intros Henc. apply Hkind.
        intros j entry' Hj. apply (Henc (Datatypes.S j)). lia.
      * exists e1, out1. split; [reflexivity|]. intros Henc.
        destruct (Henc 0%nat e0 ltac:(lia) eq_refl) as (bs & Hbs).
        revert E. unfold save_record, bind, lift, f_write, modify.
        destruct (pack_LL _ _) as [hd|e2] eqn:P.
        -- rewrite Hbs. discriminate.
        -- intros H. injection H as <- _. exact (pack_LL_raises _ _ _ P).
Qed.

(** C8, as the code has it.  When the index fits the index size and some
    entry has contents of 2^32 bytes or more, or an ASCII path of 2^32
    bytes or more, [save] opens the file and raises: [struct.error], or
    [UnicodeEncodeError]; it is [struct.error] when the paths of the
    entries before that one can be encoded. *)
Theorem save_length_overflow (this : FTLPack) (target : option bytes)
    (i : nat) (entry : FileEntry) :
  len (index this) <= index_size this ->
  nth_error (index this) i = Some entry ->
  length_overflow entry ->
  exists e out,
    save this target = (Raise e, Some out)
    /\ save_exn e
    /\ ((forall j entry', (j < i)%nat ->
           nth_error (index this) j = Some entry' ->
           encodable (path entry')) -> e = struct_error).
Proof.
  intros Hfit Hnth Hov. unfold save.
  destruct (Z.gtb_spec (len (index this)) (index_size this)); [lia|].
  destruct (save_body this []) as [r out] eqn:E.
  assert (Hr : exists e, r = Raise e
             /\ ((forall j entry', (j < i)%nat ->
                    nth_error (index this) j = Some entry' ->
                    encodable (path entry')) -> e = struct_error)).
  { revert E. unfold save_body, bind at 1 2, lift, f_write, modify.
    destruct (pack_L (index_size this)) as [hd|e0] eqn:P.
    - unfold bind at 1.
      destruct (save_offsets _ _ _) as [[off|e1] out1] eqn:O.
      + unfold bind at 1.
        destruct (save_records_overflow (index this) i entry
                    (out1 ++ bytes_mul (bytes_mul [x00] 4)
                               (index_size this - len (index this)))
                    Hnth Hov) as (e & out' & Hrun & Hkind).
        rewrite Hrun. intros Hs. injection Hs as <- _. now exists e.
      + intros Hs. injection Hs as <- _. exists e1. split; [reflexivity|].
        intros _. exact (save_offsets_raises _ _ _ _ _ O).
    - intros Hs. injection Hs as <- _. exists e0. split; [reflexivity|].
      intros _. exact (pack_L_raises _ _ P). }
  destruct Hr as (e & -> & Hkind).
  exists e, out. split; [reflexivity|]. split; [|exact Hkind].
  exact (save_body_raises this _ _ _ E).
Qed.

Lemma len_big_contents : len big_contents = 2 ^ 32.
Proof. unfold big_contents. rewrite len_repeat. lia. Qed.

Lemma save_length_overflow_witness :
  len (index big_pack) <= index_size big_pack
  /\ length_overflow {| path := ascii_str ["a"]%byte; contents := big_contents |}
  /\ exists e out,
       save big_pack None = (Raise e, Some out)
       /\ save_exn e
       /\ ((forall j entry', (j < 0)%nat ->
              nth_error (index big_pack) j = Some entry' ->
              encodable (path entry')) -> e = struct_error).
Proof.
  assert (Hfit : len (index big_pack) <= index_size big_pack).
  { unfold big_pack, len. cbn [index index_size length]. lia. }
  assert (Hov : length_overflow
                  {| path := ascii_str ["a"]%byte; contents := big_contents |}).
  { left. cbn [contents]. rewrite len_big_contents. lia. }
  split; [exact Hfit|]. split; [exact Hov|].
  exact (save_length_overflow big_pack None 0 _ Hfit eq_refl Hov).
Defined.

Lemma save_surrogate_first (c : bytes) :
  save {| index := [ {| path := [0xD800%N]; contents := [] |};
                     {| path := ascii_str ["a"]%byte; contents := c |} ];
          index_size := 2 |} None
  = (Raise UnicodeEncodeError,
     Some ([x02; x00; x00; x00] ++ [x0c; x00; x00; x00]
           ++ [x15; x00; x00; x00]
           ++ [x00; x00; x00; x00] ++ [x01; x00; x00; x00])).
Proof. vm_compute. reflexivity. Qed.

(** C8, the claim as written fails: with contents of 2^32 bytes in the
    second entry and a lone surrogate as the path of the first, [save]
    raises [UnicodeEncodeError], not [struct.error]. *)
Lemma save_surrogate_then_big :
  len (index surrogate_then_big) <= index_size surrogate_then_big
  /\ nth_error (index surrogate_then_big) 1
     = Some {| path := ascii_str ["a"]%byte; contents := big_contents |}
  /\ 2 ^ 32 <= len big_contents
  /\ exists out,
       save surrogate_then_big None = (Raise UnicodeEncodeError, Some out).
Proof.
  split; [unfold surrogate_then_big, len; cbn [index index_size length]; lia|].
  split; [reflexivity|].
  split; [rewrite len_big_contents; lia|].
  eexists. exact (save_surrogate_first big_contents).
Qed.

(** ** ASCII strings *)

Lemma encode_ascii (s : str) :
  is_ascii s = true -> encode s = Ok (map byte_of_N s).
Proof.
  induction s as [|c t IH]; cbn [is_ascii forallb encode map]; [reflexivity|].
  intros H. apply andb_prop in H as [Hc Ht].
  unfold encode_char. rewrite Hc. now rewrite (IH Ht).
Qed.

Lemma decode_ascii (s : str) :
  is_ascii s = true -> decode (map byte_of_N s) = Ok s.
Proof.
  induction s as [|c t IH]; cbn [is_ascii forallb decode map]; [reflexivity|].
  intros H. apply andb_prop in H as [Hc Ht].
  cbv zeta. rewrite to_N_byte_of_N.
  assert (Hlt : (c < 128)%N) by (apply N.ltb_lt; exact Hc).
  rewrite N.mod_small by lia. rewrite Hc.
  now rewrite (IH Ht).
Qed.

(** ** What save writes *)

Lemma pack_L_ok (n : Z) (bs : bytes) :
  pack_L n = Ok bs -> 0 <= n < 2 ^ 32 /\ bs = le32 n.
Proof.
  unfold pack_L. destruct (Z.leb_spec 0 n); destruct (Z.ltb_spec n (2 ^ 32));
    cbn [andb]; intros E; try discriminate.
  injection E as <-. split; [lia | reflexivity].
Qed.

Lemma pack_LL_ok (a b : Z) (bs : bytes) :
  pack_LL a b = Ok bs ->
  0 <= a < 2 ^ 32 /\ 0 <= b < 2 ^ 32 /\ bs = le32 a ++ le32 b.
Proof.
  unfold pack_LL.
  destruct (pack_L a) as [x|] eqn:Pa; [|discriminate].
  destruct (pack_L b) as [y|] eqn:Pb; [|discriminate].
  apply pack_L_ok in Pa as [Ha ->]. apply pack_L_ok in Pb as [Hb ->].
  intros H. injection H as <-. auto.
Qed.

Lemma unpack_L_le32 (n : Z) : 0 <= n < 2 ^ 32 -> unpack_L (le32 n) = Ok n.
Proof.
  intros Hn. apply unpack_pack_L. unfold pack_L.
  destruct (Z.leb_spec 0 n); destruct (Z.ltb_spec n (2 ^ 32)); try lia.
  reflexivity.
Qed.

Lemma unpack_LL_le32 (a b : Z) :
  0 <= a < 2 ^ 32 -> 0 <= b < 2 ^ 32 ->
  unpack_LL (le32 a ++ le32 b) = Ok (a, b).
Proof.
  intros Ha Hb.
  pose proof (le32_value_le32 a Ha) as Va.
  pose proof (le32_value_le32 b Hb) as Vb.
  unfold unpack_LL.
  destruct (le32 a) as [|a0 [|a1 [|a2 [|a3 [|]]]]]; try contradiction.
  destruct (le32 b) as [|b0 [|b1 [|b2 [|b3 [|]]]]]; try contradiction.
  cbn [app]. now rewrite Va, Vb.
Qed.

Lemma save_offsets_ok (es : list FileEntry) (offset offset' : Z)
    (out out' : bytes) :
  save_offsets es offset out = (Ok offset', out') ->
  out' = out ++ concat (map le32 (slot_offsets es offset))
  /\ Forall (fun o => 0 <= o < 2 ^ 32) (slot_offsets es offset).
Proof.
  revert offset out. induction es as [|entry t IH]; intros offset out;
    cbn [save_offsets slot_offsets map concat].
  - unfold ret. intros H. injection H as _ <-.
    split; [now rewrite app_nil_r | constructor].
  - unfold bind at 1, lift at 1.
    destruct (pack_L offset) as [bs|] eqn:P; [|discriminate].
    apply pack_L_ok in P as [Hoff ->].
    unfold bind, f_write, modify. intros H. apply IH in H as [-> Hall].
    split; [now rewrite <- app_assoc | now constructor].
Qed.

Lemma save_record_ok (entry : FileEntry) (out out' : bytes) :
  save_record entry out = (Ok tt, out') ->
  exists pbs,
    encode (path entry) = Ok pbs
    /\ 0 <= len (contents entry) < 2 ^ 32
    /\ 0 <= len (path entry) < 2 ^ 32
    /\ out' = out ++ le32 (len (contents entry)) ++ le32 (len (path entry))
                  ++ pbs ++ contents entry.
Proof.
  unfold save_record, bind, lift, f_write, modify.
  destruct (pack_LL _ _) as [hd|] eqn:P; [|discriminate].
  apply pack_LL_ok in P as (Hc & Hp & ->).
  destruct (encode (path entry)) as [pbs|]; [|discriminate].
  intros H. injection H as <-. exists pbs.
  repeat split; try lia. now rewrite <- !app_assoc.
Qed.

Lemma save_records_ok (es : list FileEntry) (out out' : bytes) :
  for_each es save_record out = (Ok tt, out') ->
  (exists recs, out' = out ++ recs)
  /\ Forall (fun entry => 0 <= len (contents entry) < 2 ^ 32
                          /\ 0 <= len (path entry) < 2 ^ 32
                          /\ encodable (path entry)) es.
Proof.
  revert out. induction es as [|entry t IH]; intros out; cbn [for_each].
  - unfold ret. intros H. injection H as <-. split; [|constructor].
    exists []. now rewrite app_nil_r.
  - intros H. apply bind_inv_ok in H as ([] & out1 & H1 & H2).
    apply save_record_ok in H1 as (pbs & He & Hc & Hp & ->).
    apply IH in H2 as [[recs ->] Hall]. split.
    + eexists. rewrite <- app_assoc. reflexivity.
    + constructor; [|exact Hall]. repeat split; try lia. now exists pbs.
Qed.

Lemma save_records_ascii (es : list FileEntry) (out out' : bytes) :
  ascii_paths es ->
  for_each es save_record out = (Ok tt, out') ->
  out' = out ++ concat (map ascii_record es).
Proof.
  intros Hascii. revert out. induction Hascii as [|entry t Ha _ IH];
    intros out; cbn [for_each map concat].
  - unfold ret. intros H. injection H as <-. now rewrite app_nil_r.
  - intros H. apply bind_inv_ok in H as ([] & out1 & H1 & H2).
    apply save_record_ok in H1 as (pbs & He & Hc & Hp & ->).
    rewrite (encode_ascii _ Ha) in He. injection He as <-.
    apply IH in H2 as ->. unfold ascii_record. now rewrite <- !app_assoc.
Qed.

(** A save that returns has written the index table and then whatever
    the loop over the records wrote. *)
Lemma save_body_layout (this : FTLPack) (out : bytes) :
  save_body this [] = (Ok tt, out) ->
  0 <= index_size this < 2 ^ 32
  /\ Forall (fun o => 0 <= o < 2 ^ 32)
       (slot_offsets (index this) (4 + 4 * index_size this))
  /\ for_each (index this) save_record (index_table this) = (Ok tt, out).
Proof.
  unfold save_body, index_table. unfold bind at 1, lift at 1.
  destruct (pack_L (index_size this)) as [hd|] eqn:P; [|discriminate].
  apply pack_L_ok in P as [Hcap ->].
  unfold bind at 1, f_write at 1, modify at 1. cbn [app].
  unfold bind at 1.
  destruct (save_offsets _ _ _) as [[off|] out1] eqn:O; [|discriminate].
  apply save_offsets_ok in O as [-> Hall].
  unfold bind at 1, f_write at 1, modify at 1.
  rewrite <- app_assoc. auto.
Qed.

(** ** Loading what save wrote *)

Lemma bind_modify {S B : Type} (f : S -> S) (k : unit -> M S B) (s : S) :
  bind (modify f) k s = k tt (f s).
Proof. reflexivity. Qed.

Lemma bind_f_read {B : Type} (data : bytes) (n : Z)
    (k : bytes -> M load_state B) (s : load_state) :
  bind (f_read data n) k s
  = k (read_at data (pos s) n)
      {| self := self s; pos := pos s + len (read_at data (pos s) n) |}.
Proof. reflexivity. Qed.

Lemma bind_lift_ok {S A B : Type} (r : result A) (a : A) (k : A -> M S B)
    (s : S) :
  r = Ok a -> bind (lift r) k s = k a s.
Proof. intros ->. reflexivity. Qed.

Ltac step := cbv beta iota; cbn [pos self index index_size].

Lemma read_at_mid (pre x post : bytes) (o n : Z) :
  o = len pre -> n = len x -> read_at (pre ++ x ++ post) o n = x.
Proof. intros -> ->. apply read_at_app. Qed.

Lemma len_ascii_record (entry : FileEntry) :
  len (ascii_record entry) = size entry.
Proof.
  unfold ascii_record, size. rewrite !len_app, !len_le32, len_map. lia.
Qed.

Lemma u32_at_unpack (data : bytes) (o v : Z) :
  u32_at data o = Some v -> unpack_L (read_at data o 4) = Ok v.
Proof.
  unfold u32_at. destruct (unpack_L _) as [w|]; [|discriminate].
  intros E. now injection E as ->.
Qed.

(** A zero slot is skipped. *)
Lemma load_slot_zero (data : bytes) (index_offset : Z) (s : load_state) :
  u32_at data index_offset = Some 0 ->
  exists p,
    load_slot data index_offset s = (Ok tt, {| self := self s; pos := p |}).
Proof.
  intros U. apply u32_at_unpack in U. unfold load_slot, f_seek.
  rewrite bind_modify. step. rewrite bind_f_read. step.
  rewrite (bind_lift_ok _ _ _ _ U). step.
  change (0 >? 0) with false. step. unfold ret. eexists. reflexivity.
Qed.

(** A slot that points to the record of an entry with an ASCII path
    appends that entry. *)
Lemma load_slot_record (pre post : bytes) (entry : FileEntry)
    (index_offset : Z) (s : load_state) :
  u32_at (pre ++ ascii_record entry ++ post) index_offset = Some (len pre) ->
  0 < len pre ->
  is_ascii (path entry) = true ->
  0 <= len (contents entry) < 2 ^ 32 ->
  0 <= len (path entry) < 2 ^ 32 ->
  exists p,
    load_slot (pre ++ ascii_record entry ++ post) index_offset s
    = (Ok tt,
       {| self := {| index := index (self s) ++ [entry];
                     index_size := index_size (self s) |};
          pos := p |}).
Proof.
  intros Hslot Hpos Hascii Hc Hp.
  assert (Eta : {| path := path entry; contents := contents entry |} = entry)
    by (destruct entry; reflexivity).
  set (data := pre ++ ascii_record entry ++ post) in *.
  assert (R1 : read_at data (len pre) 8
               = le32 (len (contents entry)) ++ le32 (len (path entry))).
  { unfold data, ascii_record. rewrite <- !app_assoc.
    rewrite (app_assoc (le32 _) (le32 _)).
    apply read_at_mid; [reflexivity|]. now rewrite len_app, !len_le32. }
  assert (R2 : read_at data (len pre + 8) (len (path entry))
               = map byte_of_N (path entry)).
  { unfold data, ascii_record. rewrite <- !app_assoc.
    rewrite (app_assoc (le32 _) (le32 _)), (app_assoc pre).
    apply read_at_mid; [|now rewrite len_map].
    rewrite !len_app, !len_le32. lia. }
  assert (R3 : read_at data (len pre + 8 + len (path entry))
                 (len (contents entry)) = contents entry).
  { unfold data, ascii_record. rewrite <- !app_assoc.
    rewrite (app_assoc (le32 _) (le32 _)), (app_assoc pre),
      (app_assoc (pre ++ _)).
    apply read_at_mid; [|reflexivity].
    rewrite !len_app, !len_le32, len_map. lia. }
  apply u32_at_unpack in Hslot.
  assert (G : (len pre >? 0) = true) by (apply Z.gtb_lt; lia).
  unfold load_slot, f_seek.
  rewrite bind_modify. step. rewrite bind_f_read. step.
  rewrite (bind_lift_ok _ _ _ _ Hslot). step. rewrite G.
  rewrite bind_modify. step. rewrite bind_f_read. step. rewrite R1.
  rewrite (bind_lift_ok _ _ _ _ (unpack_LL_le32 _ _ Hc Hp)). step.
  rewrite bind_f_read. step. rewrite len_app, !len_le32.
  replace (len pre + (4 + 4)) with (len pre + 8) by lia. rewrite R2.
  rewrite (bind_lift_ok _ _ _ _ (decode_ascii _ Hascii)). step.
  rewrite bind_f_read. step. rewrite len_map, R3.
  unfold index_append, modify. step. rewrite Eta. eexists. reflexivity.
Qed.

(** *** The index table, slot by slot *)

Lemma len_concat_chunks (chunks : list bytes) :
  Forall (fun c => len c = 4) chunks -> len (concat chunks) = 4 * len chunks.
Proof.
  induction 1 as [|c t Hc _ IH]; cbn [concat].
  - reflexivity.
  - rewrite len_app, len_cons, Hc, IH. lia.
Qed.

Lemma read_chunk (chunks : list bytes) :
  forall (pre post : bytes) (k : nat) (c : bytes),
  Forall (fun c => len c = 4) chunks ->
  nth_error chunks k = Some c ->
  read_at (pre ++ concat chunks ++ post) (len pre + 4 * Z.of_nat k) 4 = c.
Proof.
  induction chunks as [|c0 t IH]; intros pre post k c Hall Hnth.
  - destruct k; discriminate.
  - inversion Hall as [|? ? Hc0 Ht]; subst. cbn [concat]. destruct k as [|k].
    + injection Hnth as ->. rewrite <- app_assoc.
      apply read_at_mid; lia.
    + cbn [nth_error] in Hnth. rewrite <- app_assoc, (app_assoc pre).
      replace (len pre + 4 * Z.of_nat (S k))
        with (len (pre ++ c0) + 4 * Z.of_nat k) by (rewrite len_app; lia).
      now apply IH.
Qed.

Lemma nth_error_mid {A : Type} (a b : list A) (x : A) :
  nth_error (a ++ x :: b) (length a) = Some x.
Proof. induction a as [|y a IH]; cbn [app length nth_error]; auto. Qed.

Lemma nth_error_repeat_lt {A : Type} (x : A) (m k : nat) :
  (k < m)%nat -> nth_error (repeat x m) k = Some x.
Proof.
  revert k. induction m as [|m IH]; intros k Hk; [lia|].
  destruct k as [|k]; cbn [repeat nth_error]; [reflexivity|].
  apply IH. lia.
Qed.

Lemma size_pos (entry : FileEntry) : 8 <= size entry.
Proof.
  unfold size. pose proof (len_nonneg (path entry)).
  pose proof (len_nonneg (contents entry)). lia.
Qed.

Lemma total_size_cons (entry : FileEntry) (t : list FileEntry) :
  total_size (entry :: t) = size entry + total_size t.
Proof. reflexivity. Qed.

Lemma total_size_nonneg (es : list FileEntry) : 0 <= total_size es.
Proof.
  induction es as [|e t IH]; [reflexivity|].
  rewrite total_size_cons. pose proof (size_pos e). lia.
Qed.

Lemma total_size_app (a b : list FileEntry) :
  total_size (a ++ b) = total_size a + total_size b.
Proof.
  induction a as [|e t IH]; cbn [app]; [reflexivity|].
  rewrite !total_size_cons, IH. lia.
Qed.

Lemma slot_offsets_app (a b : list FileEntry) (offset : Z) :
  slot_offsets (a ++ b) offset
  = slot_offsets a offset ++ slot_offsets b (offset + total_size a).
Proof.
  revert offset. induction a as [|e t IH]; intros offset;
    cbn [app slot_offsets].
  - change (total_size []) with 0. now rewrite Z.add_0_r.
  - rewrite IH, total_size_cons.
    replace (offset + size e + total_size t)
      with (offset + (size e + total_size t)) by lia.
    reflexivity.
Qed.

Lemma length_slot_offsets (es : list FileEntry) (offset : Z) :
  length (slot_offsets es offset) = length es.
Proof.
  revert offset. induction es as [|e t IH]; intros offset;
    cbn [slot_offsets length]; [reflexivity|]. now rewrite IH.
Qed.

Lemma len_concat_ascii_records (es : list FileEntry) :
  len (concat (map ascii_record es)) = total_size es.
Proof.
  induction es as [|e t IH]; cbn [map concat]; [reflexivity|].
  now rewrite len_app, len_ascii_record, IH, total_size_cons.
Qed.

Lemma index_table_chunks (this : FTLPack) :
  index_table this = le32 (index_size this) ++ concat (slot_chunks this).
Proof. unfold index_table, slot_chunks. rewrite concat_app. reflexivity. Qed.

Lemma slot_chunks_len4 (this : FTLPack) :
  Forall (fun c => len c = 4) (slot_chunks this).
Proof.
  unfold slot_chunks. apply Forall_app. split.
  - induction (slot_offsets _ _) as [|o t IH]; cbn [map]; constructor;
      [apply len_le32 | exact IH].
  - apply Forall_forall. intros c Hc. apply repeat_spec in Hc. now subst.
Qed.

Lemma len_slot_chunks (this : FTLPack) :
  len (index this) <= index_size this ->
  len (slot_chunks this) = index_size this.
Proof.
  intros Hfit. unfold slot_chunks.
  rewrite len_app, len_map, len_repeat. unfold len in *.
  rewrite length_slot_offsets. lia.
Qed.

Lemma len_index_table (this : FTLPack) :
  len (index this) <= index_size this ->
  len (index_table this) = 4 + 4 * index_size this.
Proof.
  intros Hfit.
  rewrite index_table_chunks, len_app, len_le32,
    (len_concat_chunks _ (slot_chunks_len4 this)), (len_slot_chunks _ Hfit).
  reflexivity.
Qed.

(** The slot of an entry holds the offset of its record. *)
Lemma slot_entry_value (this : FTLPack) (recs : bytes)
    (es1 es2 : list FileEntry) (entry : FileEntry) :
  index this = es1 ++ entry :: es2 ->
  Forall (fun o => 0 <= o < 2 ^ 32)
    (slot_offsets (index this) (4 + 4 * index_size this)) ->
  u32_at (index_table this ++ recs) (4 + 4 * len es1)
  = Some (4 + 4 * index_size this + total_size es1).
Proof.
  intros Hidx Hoffs.
  assert (Hnth : nth_error (slot_chunks this) (length es1)
                 = Some (le32 (4 + 4 * index_size this + total_size es1))).
  { unfold slot_chunks. rewrite Hidx, slot_offsets_app. cbn [slot_offsets].
    rewrite map_app. cbn [map]. rewrite <- app_assoc. cbn [app].
    rewrite <- (length_slot_offsets es1 (4 + 4 * index_size this)).
    rewrite <- (length_map le32). apply nth_error_mid. }
  assert (Hin : 0 <= 4 + 4 * index_size this + total_size es1 < 2 ^ 32).
  { rewrite Hidx, slot_offsets_app in Hoffs. apply Forall_app in Hoffs as [_ H2].
    cbn [slot_offsets] in H2. now inversion H2. }
  rewrite index_table_chunks, <- app_assoc. unfold u32_at.
  replace (4 + 4 * len es1)
    with (len (le32 (index_size this)) + 4 * Z.of_nat (length es1))
    by (rewrite len_le32; reflexivity).
  rewrite (read_chunk _ _ _ _ _ (slot_chunks_len4 this) Hnth).
  now rewrite (unpack_L_le32 _ Hin).
Qed.

(** The slots after those of the entries hold zero. *)
Lemma slot_zero_value (this : FTLPack) (recs : bytes) (j : Z) :
  len (index this) <= j < index_size this ->
  u32_at (index_table this ++ recs) (4 + 4 * j) = Some 0.
Proof.
  intros Hj.
  assert (Hnth : nth_error (slot_chunks this) (Z.to_nat j)
                 = Some (bytes_mul [x00] 4)).
  { unfold slot_chunks. unfold len in Hj.
    rewrite nth_error_app2
      by (rewrite length_map, length_slot_offsets; lia).
    apply nth_error_repeat_lt.
    rewrite length_map, length_slot_offsets. unfold len. lia. }
  rewrite index_table_chunks, <- app_assoc. unfold u32_at.
  replace (4 + 4 * j)
    with (len (le32 (index_size this)) + 4 * Z.of_nat (Z.to_nat j))
    by (rewrite len_le32; pose proof (len_nonneg (index this)); lia).
  rewrite (read_chunk _ _ _ _ _ (slot_chunks_len4 this) Hnth).
  reflexivity.
Qed.

(** *** The loop over the slots *)

Lemma load_zero_slots (data : bytes) (m : nat) :
  forall (i : Z) (s : load_state),
  (forall j, i <= j < i + Z.of_nat m -> u32_at data (4 + 4 * j) = Some 0) ->
  exists s',
    for_count m 4 (load_slot data) (4 + 4 * i) s = (Ok tt, s')
    /\ self s' = self s.
Proof.
  induction m as [|m IH]; intros i s Hz.
  - exists s. split; reflexivity.
  - cbn [for_count].
    destruct (load_slot_zero data (4 + 4 * i) s (Hz i ltac:(lia))) as [p Hp].
    rewrite (bind_ok _ _ _ _ _ Hp).
    destruct (IH (i + 1) {| self := self s; pos := p |}) as (s' & Hrun & Hs').
    { intros j Hj. apply Hz. lia. }
    replace (4 + 4 * i + 4) with (4 + 4 * (i + 1)) by lia.
    exists s'. split; [exact Hrun | exact Hs'].
Qed.

Section LoadSaved.

Variable this : FTLPack.
Hypothesis Hfit : len (index this) <= index_size this.
Hypothesis Hcap : 0 <= index_size this < 2 ^ 32.
Hypothesis Hoffs :
  Forall (fun o => 0 <= o < 2 ^ 32)
    (slot_offsets (index this) (4 + 4 * index_size this)).
Hypothesis Hascii : ascii_paths (index this).
Hypothesis Hlens :
  Forall (fun entry => 0 <= len (contents entry) < 2 ^ 32
                       /\ 0 <= len (path entry) < 2 ^ 32
                       /\ encodable (path entry)) (index this).

Lemma load_entries (es2 : list FileEntry) :
  forall (es1 : list FileEntry) (s : load_state),
  index this = es1 ++ es2 ->
  index (self s) = es1 ->
  exists s',
    for_count (length es2) 4 (load_slot (ascii_image this))
      (4 + 4 * len es1) s = (Ok tt, s')
    /\ index (self s') = index this
    /\ index_size (self s') = index_size (self s).
Proof.
  induction es2 as [|e es2 IH]; intros es1 s Hidx Hs.
  - exists s. rewrite app_nil_r in Hidx. cbn [length for_count].
    split; [reflexivity|]. split; [congruence | reflexivity].
  - cbn [length for_count].
    set (pre := index_table this ++ concat (map ascii_record es1)).
    set (post := concat (map ascii_record es2)).
    assert (Hdata : ascii_image this = pre ++ ascii_record e ++ post).
    { unfold ascii_image, pre, post. rewrite Hidx, map_app, concat_app.
      cbn [map concat]. now rewrite <- !app_assoc. }
    assert (Hpre : len pre = 4 + 4 * index_size this + total_size es1).
    { unfold pre. now rewrite len_app, (len_index_table _ Hfit),
        len_concat_ascii_records. }
    assert (Hin : In e (index this)).
    { rewrite Hidx. apply in_elt. }
    pose proof (proj1 (Forall_forall _ _) Hascii e Hin) as Ha.
    pose proof (proj1 (Forall_forall _ _) Hlens e Hin) as (Hc & Hp & _).
    pose proof (slot_entry_value this (concat (map ascii_record (index this)))
                  es1 es2 e Hidx Hoffs) as Hslot.
    fold (ascii_image this) in Hslot. rewrite <- Hpre, Hdata in Hslot.
    pose proof (total_size_nonneg es1) as Hts.
    destruct (load_slot_record pre post e (4 + 4 * len es1) s Hslot
                ltac:(lia) Ha Hc Hp) as [p Hrun].
    rewrite <- Hdata in Hrun. rewrite (bind_ok _ _ _ _ _ Hrun).
    destruct (IH (es1 ++ [e])
                {| self := {| index := index (self s) ++ [e];
                              index_size := index_size (self s) |};
                   pos := p |})
      as (s' & Hloop & Hi' & Hsz').
    { now rewrite <- app_assoc. }
    { cbn [self index]. now rewrite Hs. }
    replace (4 + 4 * len es1 + 4) with (4 + 4 * len (es1 ++ [e]))
      by (rewrite len_app, len_cons, len_nil; lia).
    exists s'. split; [exact Hloop|]. split; [exact Hi' | exact Hsz'].
Qed.

(** Loading the bytes of the archive gives the archive, whatever the
    object held before. *)
Lemma load_ascii_image (prior : FTLPack) :
  load prior (ascii_image this) = (Ok tt, this).
Proof.
  assert (Hh : read_at (ascii_image this) 0 4 = le32 (index_size this)).
  { unfold ascii_image, index_table. rewrite <- !app_assoc.
    apply (read_at_mid [] _ _ 0 4); reflexivity. }
  unfold load, load_body, set_index, set_index_size.
  rewrite bind_modify. step. rewrite bind_f_read. step. rewrite Hh.
  rewrite (bind_lift_ok _ _ _ _ (unpack_L_le32 _ Hcap)). step.
  rewrite bind_modify. step.
  set (s0 := {| self := {| index := []; index_size := index_size this |};
                pos := 0 + len (le32 (index_size this)) |}).
  assert (Hloop : exists s2,
            for_range 4 (4 + 4 * index_size this) 4
              (load_slot (ascii_image this)) s0 = (Ok tt, s2)
            /\ self s2 = this).
  { rewrite for_range_slots.
    replace (Z.to_nat (index_size this))
      with (length (index this)
            + Z.to_nat (index_size this - len (index this)))%nat
      by (unfold len in *; lia).
    rewrite for_count_add.
    destruct (load_entries (index this) [] s0 eq_refl eq_refl)
      as (s1 & H1 & Hi1 & Hsz1).
    change (4 + 4 * len (@nil FileEntry)) with 4 in H1.
    rewrite (bind_ok _ _ _ _ _ H1).
    change (Z.of_nat (length (index this))) with (len (index this)).
    destruct (load_zero_slots (ascii_image this)
                (Z.to_nat (index_size this - len (index this)))
                (len (index this)) s1) as (s2 & H2 & Hs2).
    { intros j Hj. apply slot_zero_value. lia. }
    exists s2. split; [exact H2|]. rewrite Hs2.
    destruct this as [idx cap], (self s1) as [idx1 cap1].
    cbn [index index_size self] in *. now subst. }
  destruct Hloop as (s2 & Hrun & Hs2).
  rewrite (bind_ok _ _ _ _ _ Hrun). unfold f_seek, modify. step.
  now rewrite Hs2.
Qed.

End LoadSaved.

(** A save that returns for an archive with ASCII paths has written the
    index table followed by the records. *)
Lemma save_ascii_image (this : FTLPack) (target : option bytes) (out : bytes) :
  ascii_paths (index this) ->
  save this target = (Ok tt, Some out) ->
  out = ascii_image this
  /\ len (index this) <= index_size this
  /\ 0 <= index_size this < 2 ^ 32
  /\ Forall (fun o => 0 <= o < 2 ^ 32)
       (slot_offsets (index this) (4 + 4 * index_size this))
  /\ Forall (fun entry => 0 <= len (contents entry) < 2 ^ 32
                          /\ 0 <= len (path entry) < 2 ^ 32
                          /\ encodable (path entry)) (index this).
Proof.
  intros Hascii. unfold save.
  destruct (Z.gtb_spec (len (index this)) (index_size this)) as [|Hfit];
    [discriminate|].
  destruct (save_body this []) as [r o] eqn:E. intros Hs.
  injection Hs as -> ->.
  apply save_body_layout in E as (Hcap & Hoffs & Hrec).
  pose proof (save_records_ok _ _ _ Hrec) as [_ Hlens].
  apply (save_records_ascii _ _ _ Hascii) in Hrec as ->.
  repeat split; auto; lia.
Qed.

(** Round trip.  When every path of the archive is ASCII and [save]
    returns, loading the file it wrote into any object gives back the
    entries, in order, and the index size. *)
Theorem load_save_ascii (this prior : FTLPack) (target : option bytes)
    (out : bytes) :
  ascii_paths (index this) ->
  save this target = (Ok tt, Some out) ->
  load prior out = (Ok tt, this).
Proof.
  intros Hascii Hsave.
  apply (save_ascii_image _ _ _ Hascii) in Hsave
    as (-> & Hfit & Hcap & Hoffs & Hlens).
  now apply load_ascii_image.
Qed.

Lemma load_save_ascii_witness :
  ascii_paths (index scenario)
  /\ save scenario None = (Ok tt, Some scenario_bytes)
  /\ load accented scenario_bytes = (Ok tt, scenario).
Proof.
  assert (Ha : ascii_paths (index scenario)) by (repeat constructor).
  assert (Hs : save scenario None = (Ok tt, Some scenario_bytes))
    by reflexivity.
  split; [exact Ha|]. split; [exact Hs|].
  exact (load_save_ascii scenario accented None scenario_bytes Ha Hs).
Defined.

(** ** The index table of every saved archive *)

Lemma read_header (n : Z) (rest : bytes) :
  read_at (le32 n ++ rest) 0 4 = le32 n.
Proof. exact (read_at_mid [] (le32 n) rest 0 4 eq_refl eq_refl). Qed.

(** Whatever the paths, a save that returns has written the header with
    the index size, then for each entry a slot holding the index-table
    length plus the sizes of the entries before it, then zero in every
    slot left over. *)
Theorem save_index_table (this : FTLPack) (target : option bytes)
    (out : bytes) :
  save this target = (Ok tt, Some out) ->
  u32_at out 0 = Some (index_size this)
  /\ (forall es1 entry es2, index this = es1 ++ entry :: es2 ->
        u32_at out (4 + 4 * len es1)
        = Some (4 + 4 * index_size this + total_size es1)
        /\ 0 < 4 + 4 * index_size this + total_size es1)
  /\ (forall j, len (index this) <= j < index_size this ->
        u32_at out (4 + 4 * j) = Some 0).
Proof.
  unfold save.
  destruct (Z.gtb_spec (len (index this)) (index_size this)) as [|Hfit];
    [discriminate|].
  destruct (save_body this []) as [r o] eqn:E. intros Hs.
  injection Hs as -> ->.
  apply save_body_layout in E as (Hcap & Hoffs & Hrec).
  apply save_records_ok in Hrec as [[recs ->] _].
  split; [|split].
  - unfold index_table, u32_at. rewrite <- !app_assoc.
    rewrite read_header. now rewrite (unpack_L_le32 _ Hcap).
  - intros es1 entry es2 Hidx. split.
    + now apply (slot_entry_value this recs es1 es2 entry).
    + pose proof (total_size_nonneg es1). lia.
  - intros j Hj. now apply slot_zero_value.
Qed.

Lemma save_index_table_witness :
  save accented_spare None
  = (Ok tt,
     Some ([x02; x00; x00; x00] ++ [x0c; x00; x00; x00]
           ++ [x00; x00; x00; x00]
           ++ [x00; x00; x00; x00] ++ [x01; x00; x00; x00] ++ [xc3; xa9]))
  /\ u32_at ([x02; x00; x00; x00] ++ [x0c; x00; x00; x00]
             ++ [x00; x00; x00; x00]
             ++ [x00; x00; x00; x00] ++ [x01; x00; x00; x00] ++ [xc3; xa9])
       (4 + 4 * 1) = Some 0.
Proof.
  assert (Hs : save accented_spare None
               = (Ok tt,
                  Some ([x02; x00; x00; x00] ++ [x0c; x00; x00; x00]
                        ++ [x00; x00; x00; x00]
                        ++ [x00; x00; x00; x00] ++ [x01; x00; x00; x00]
                        ++ [xc3; xa9]))) by reflexivity.
  split; [exact Hs|].
  apply (proj2 (proj2 (save_index_table accented_spare None _ Hs)) 1).
  split; [discriminate | reflexivity].
Defined.

(** ** When save returns *)

Lemma pack_L_in (n : Z) : 0 <= n < 2 ^ 32 -> pack_L n = Ok (le32 n).
Proof.
  intros Hn. unfold pack_L.
  destruct (Z.leb_spec 0 n); destruct (Z.ltb_spec n (2 ^ 32)); try lia.
  reflexivity.
Qed.

Lemma pack_LL_in (a b : Z) :
  0 <= a < 2 ^ 32 -> 0 <= b < 2 ^ 32 -> pack_LL a b = Ok (le32 a ++ le32 b).
Proof.
  intros Ha Hb. unfold pack_LL. now rewrite (pack_L_in _ Ha), (pack_L_in _ Hb).
Qed.

Lemma save_offsets_run (es : list FileEntry) :
  forall (offset : Z) (out : bytes),
  Forall (fun o => 0 <= o < 2 ^ 32) (slot_offsets es offset) ->
  save_offsets es offset out
  = (Ok (offset + total_size es),
     out ++ concat (map le32 (slot_offsets es offset))).
Proof.
  induction es as [|e t IH]; intros offset out Hall;
    cbn [save_offsets slot_offsets map concat].
  - unfold ret. change (total_size []) with 0.
    now rewrite Z.add_0_r, app_nil_r.
  - cbn [slot_offsets] in Hall. inversion Hall as [|? ? Ho Ht]; subst.
    rewrite (bind_lift_ok _ _ _ _ (pack_L_in _ Ho)).
    unfold f_write. rewrite bind_modify, (IH _ _ Ht), total_size_cons.
    rewrite <- app_assoc. arith_args.
Qed.

Lemma save_records_run (es : list FileEntry) :
  forall out : bytes,
  ascii_paths es ->
  Forall (fun entry => 0 <= len (contents entry) < 2 ^ 32
                       /\ 0 <= len (path entry) < 2 ^ 32) es ->
  for_each es save_record out = (Ok tt, out ++ concat (map ascii_record es)).
Proof.
  induction es as [|e t IH]; intros out Hascii Hlens;
    cbn [for_each map concat].
  - unfold ret. now rewrite app_nil_r.
  - inversion Hascii as [|? ? Ha Hat]; subst.
    inversion Hlens as [|? ? [Hc Hp] Hlt]; subst.
    assert (Hrec : save_record e out = (Ok tt, out ++ ascii_record e)).
    { unfold save_record, f_write.
      rewrite (bind_lift_ok _ _ _ _ (pack_LL_in _ _ Hc Hp)), bind_modify.
      rewrite (bind_lift_ok _ _ _ _ (encode_ascii _ Ha)), bind_modify.
      unfold modify, ascii_record. now rewrite <- !app_assoc. }
    rewrite (bind_ok _ _ _ _ _ Hrec), (IH _ Hat Hlt).
    now rewrite <- app_assoc.
Qed.

Lemma slot_offsets_bound (es : list FileEntry) :
  forall offset : Z,
  0 <= offset -> offset + total_size es < 2 ^ 32 ->
  Forall (fun o => 0 <= o < 2 ^ 32) (slot_offsets es offset).
Proof.
  induction es as [|e t IH]; intros offset H0 Hb; cbn [slot_offsets];
    constructor.
  - rewrite total_size_cons in Hb. pose proof (size_pos e).
    pose proof (total_size_nonneg t). lia.
  - rewrite total_size_cons in Hb. pose proof (size_pos e). apply IH; lia.
Qed.

Lemma lens_bound (es : list FileEntry) (bound : Z) :
  total_size es < bound ->
  Forall (fun entry => 0 <= len (contents entry) < bound
                       /\ 0 <= len (path entry) < bound) es.
Proof.
  induction es as [|e t IH]; intros Hb; constructor.
  - rewrite total_size_cons in Hb. unfold size in Hb.
    pose proof (total_size_nonneg t). pose proof (len_nonneg (path e)).
    pose proof (len_nonneg (contents e)). lia.
  - apply IH. rewrite total_size_cons in Hb. pose proof (size_pos e). lia.
Qed.

(** When the paths are ASCII, the index fits the index size and the
    whole file stays below 2^32 bytes, [save] returns; the file then
    holds the index table and the records, [4 + 4 * index_size] bytes
    plus the sizes of the entries. *)
Theorem save_ascii_returns (this : FTLPack) (target : option bytes) :
  ascii_paths (index this) ->
  len (index this) <= index_size this ->
  4 + 4 * index_size this + total_size (index this) < 2 ^ 32 ->
  save this target = (Ok tt, Some (ascii_image this))
  /\ len (ascii_image this)
     = 4 + 4 * index_size this + total_size (index this).
Proof.
  intros Hascii Hfit Hb. pose proof (len_nonneg (index this)) as Hn.
  pose proof (total_size_nonneg (index this)) as Ht. split.
  - unfold save.
    destruct (Z.gtb_spec (len (index this)) (index_size this)); [lia|].
    unfold save_body, f_write.
    rewrite (bind_lift_ok _ _ _ _ (pack_L_in (index_size this) ltac:(lia))).
    rewrite bind_modify.
    assert (Hoffs : Forall (fun o => 0 <= o < 2 ^ 32)
              (slot_offsets (index this) (4 + 4 * index_size this)))
      by (apply slot_offsets_bound; lia).
    assert (Hlens : Forall (fun entry => 0 <= len (contents entry) < 2 ^ 32
                       /\ 0 <= len (path entry) < 2 ^ 32) (index this))
      by (apply lens_bound; lia).
    rewrite (bind_ok _ _ _ _ _ (save_offsets_run (index this) _ _ Hoffs)).
    rewrite bind_modify.
    rewrite (save_records_run _ _ Hascii Hlens).
    unfold ascii_image, index_table. cbn [app].
    now rewrite <- !app_assoc.
  - unfold ascii_image.
    now rewrite len_app, (len_index_table _ Hfit), len_concat_ascii_records.
Qed.

Lemma save_ascii_returns_witness :
  ascii_paths (index scenario)
  /\ len (index scenario) <= index_size scenario
  /\ 4 + 4 * index_size scenario + total_size (index scenario) < 2 ^ 32
  /\ save scenario None = (Ok tt, Some (ascii_image scenario))
  /\ len (ascii_image scenario) = 45.
Proof.
  assert (Ha : ascii_paths (index scenario)) by (repeat constructor).
  assert (Hf : len (index scenario) <= index_size scenario) by discriminate.
  assert (Hb : 4 + 4 * index_size scenario + total_size (index scenario)
               < 2 ^ 32) by reflexivity.
  split; [exact Ha|]. split; [exact Hf|]. split; [exact Hb|].
  exact (save_ascii_returns scenario None Ha Hf Hb).
Defined.
